(** * Cosmic Recurrence Law: the recurrence simulation

    A shallow embedding of [cosmic_recurrence_law.py].  NumPy arrays of
    floats are modelled twice.  The main development takes them as lists
    of real numbers: it is the exact-arithmetic reading of the script, in
    which no operation rounds or overflows.  Module [F64] evaluates the
    normalizer in IEEE binary64 itself, on primitive floats, and shows
    where the two readings part: a sum that overflows, and results that
    are right only up to rounding.  Statements about the values the
    normalizer returns on arbitrary inputs are therefore made for inputs
    whose sum cannot overflow, and hold in binary64 up to rounding.  The
    three NumPy services the script calls but does not
    define (the seeded generator, its two draws, and the QR factorisation)
    are taken as parameters of the simulation. *)

From Stdlib Require Import Floats.
From Stdlib Require Import String Ascii.
From Stdlib Require Import Reals List ZArith Lia Lra Arith.
Import ListNotations.

Local Open Scope R_scope.

(** ** Vectors *)

Module Vec.

(** [np.sum] on a one-dimensional array. *)
Definition sum (v : list R) : R := fold_right Rplus 0 v.

(** [np.clip(v, lo, None)]: the elementwise maximum with [lo]. *)
Definition clip (v : list R) (lo : R) : list R := map (fun x => Rmax x lo) v.

(** [v / c] for an array [v] and a scalar [c]. *)
Definition scale_div (v : list R) (c : R) : list R := map (fun x => x / c) v.

(** [a - b] on arrays of one shape. *)
Definition sub (a b : list R) : list R :=
  map (fun p => fst p - snd p) (combine a b).

(** The inner product of a matrix row with a vector. *)
Definition dot (a b : list R) : R :=
  sum (map (fun p => fst p * snd p) (combine a b)).

(** [M @ v] for a matrix given by its rows. *)
Definition matvec (M : list (list R)) (v : list R) : list R :=
  map (fun row => dot row v) M.

(** [np.linalg.norm] on a one-dimensional array: the Euclidean norm. *)
Definition norm (v : list R) : R := sqrt (sum (map (fun x => x * x) v)).

End Vec.

(** ** The normalizer and the stepper *)

(** The literal [1e-15] of [normalize]. *)
Definition FLOOR : R := 1 / 10 ^ 15.

(** [normalize(v)]: clip from below, then divide by the sum. *)
Definition normalize (v : list R) : list R :=
  let v := Vec.clip v FLOOR in
  Vec.scale_div v (Vec.sum v).

(** [evolve_state(state, transform)]. *)
Definition evolve_state (state : list R) (transform : list (list R)) : list R :=
  let new := Vec.matvec transform state in
  normalize new.

(** The wording of the normalizer's contract: every entry is clamped to be
    at least the floor and divided by the sum of the clamped entries. *)
Definition normalize_contract (v : list R) : list R :=
  map (fun x => Rmax x FLOOR / Vec.sum (map (fun y => Rmax y FLOOR) v)) v.

(** ** The normalizer in binary64 *)

Module F64.

(** The binary64 value of the literal [1e-15]. *)
Definition FLOOR : float := 0x1.203af9ee75616p-50%float.

(** [np.maximum] on two scalars; a NaN first argument is passed on. *)
Definition maximum (x y : float) : float :=
  if PrimFloat.ltb x y then y else x.

(** [np.clip(v, lo, None)]. *)
Definition clip (v : list float) (lo : float) : list float :=
  map (fun x => maximum x lo) v.

(** [np.sum] on a one-dimensional array, added from left to right: the
    order NumPy uses for arrays of fewer than eight entries. *)
Definition sum (v : list float) : float :=
  fold_left PrimFloat.add v 0%float.

(** [normalize(v)]. *)
Definition normalize (v : list float) : list float :=
  let v := clip v FLOOR in
  map (fun x => PrimFloat.div x (sum v)) v.

End F64.


(** ** The recurrence driver *)

(** What the script takes from NumPy.  [np.random.default_rng(seed)] builds
    a generator object whose draws advance its internal state, so the state
    is passed explicitly; [linalg_qr] returns the pair [(Q, R)]. *)
Record Numpy : Type := {
  Generator : Type;
  default_rng : Z -> Generator;
  random : Generator -> nat -> list R * Generator;
  standard_normal : Generator -> nat * nat -> list (list R) * Generator;
  linalg_qr : list (list R) -> list (list R) * list (list R)
}.

(** The only exception the script's own statements can raise. *)
Inductive exn : Type := IndexError.

Inductive result (A : Type) : Type :=
| Ok (a : A)
| Raise (e : exn).
Arguments Ok {A} a.
Arguments Raise {A} e.

(** The returned triple [(step_of_return, final_distance, history)];
    Python's [None] is [None]. *)
Definition outcome : Type := (option nat * R * list R)%type.

(** How the [for] loop is left: by the [return] in its body, or by running
    out of range with the loop variables as they stand. *)
Inductive loop_exit : Type :=
| Return (r : outcome)
| Done (state : list R) (distances : list R).

(** [distances[-1]]. *)
Fixpoint getitem_last (l : list R) : option R :=
  match l with
  | [] => None
  | [x] => Some x
  | _ :: l' => getitem_last l'
  end.

(** The loop [for t in range(t, t + n)] of [recurrence_simulation]; the two
    [print] calls of the success branch are not modelled. *)
Fixpoint for_range (Q : list (list R)) (s0 : list R) (epsilon : R)
    (n t : nat) (state distances : list R) : loop_exit :=
  match n with
  | O => Done state distances
  | S n' =>
      let state := evolve_state state Q in
      let dist := Vec.norm (Vec.sub state s0) in
      let distances := distances ++ [dist] in
      if Rlt_dec dist epsilon then Return (Some t, dist, distances)
      else for_range Q s0 epsilon n' (S t) state distances
  end.

(** [recurrence_simulation(dim, steps, epsilon)].  [range(1, steps + 1)] has
    [steps] elements.  [s0.copy()] is [s0]: no array is mutated in place,
    the stepper returns a fresh one.  The two [print] calls before the
    final [return] are not modelled; [distances[-1]] is evaluated once for
    both of its occurrences. *)
Definition recurrence_simulation (np : Numpy) (dim steps : nat) (epsilon : R)
    : result outcome :=
  let rng := default_rng np 42 in
  let '(s0, rng) := random np rng dim in
  let s0 := normalize s0 in
  let '(M, rng) := standard_normal np rng (dim, dim) in
  let '(Q, _) := linalg_qr np M in
  let state := s0 in
  let distances := [] in
  match for_range Q s0 epsilon steps 1 state distances with
  | Return r => Ok r
  | Done _ distances =>
      match getitem_last distances with
      | Some d => Ok (None, d, distances)
      | None => Raise IndexError
      end
  end.

(** ** The trajectory, for stating what the driver returns *)

(** The draw [rng.random(dim)] before normalisation. *)
Definition initial_draw (np : Numpy) (dim : nat) : list R :=
  fst (random np (default_rng np 42) dim).

(** [s0]. *)
Definition initial_state (np : Numpy) (dim : nat) : list R :=
  normalize (initial_draw np dim).

(** [Q]. *)
Definition transform (np : Numpy) (dim : nat) : list (list R) :=
  fst (linalg_qr np
         (fst (standard_normal np (snd (random np (default_rng np 42) dim))
                 (dim, dim)))).

(** The state after [k] applications of the stepper. *)
Fixpoint state_at (np : Numpy) (dim k : nat) : list R :=
  match k with
  | O => initial_state np dim
  | S k' => evolve_state (state_at np dim k') (transform np dim)
  end.

(** The distance measured at step [k]. *)
Definition distance_at (np : Numpy) (dim k : nat) : R :=
  Vec.norm (Vec.sub (state_at np dim k) (initial_state np dim)).

(** The distances of steps [1 .. n], in order. *)
Definition history_upto (np : Numpy) (dim n : nat) : list R :=
  map (distance_at np dim) (seq 1 n).

(** Steps the loop body ran, read off the returned step index. *)
Definition steps_executed (steps : nat) (r : option nat) : nat :=
  match r with
  | Some t => t
  | None => steps
  end.

(** Every row has unit Euclidean length, as the rows of an orthonormal
    matrix do. *)
Definition unit_rows (M : list (list R)) : Prop :=
  Forall (fun row => Vec.dot row row = 1) M.

(** ** Two small NumPy stand-ins used to run the driver on concrete data *)

(** A generator whose uniform draw is constantly [1/2], with the identity
    matrix as transform. *)
Definition np_still : Numpy := {|
  Generator := unit;
  default_rng := fun _ => tt;
  random := fun g d => (repeat (1 / 2) d, g);
  standard_normal := fun g '(r, c) =>
    (map (fun i => map (fun j => if Nat.eqb i j then 1 else 0) (seq 0 c))
         (seq 0 r), g);
  linalg_qr := fun M => (M, M)
|}.

(** A generator whose uniform draw is [1/4, 3/4, 1/4, ...], with the
    matrix that swaps neighbouring coordinates as transform. *)
Definition np_swap : Numpy := {|
  Generator := unit;
  default_rng := fun _ => tt;
  random := fun g d =>
    (map (fun i => if Nat.even i then 1 / 4 else 3 / 4) (seq 0 d), g);
  standard_normal := fun g '(r, c) =>
    (map (fun i =>
            map (fun j =>
                   if Nat.eqb j (if Nat.even i then S i else pred i)
                   then 1 else 0) (seq 0 c))
         (seq 0 r), g);
  linalg_qr := fun M => (M, M)
|}.

(** ** Console output and the script's entry point *)

(** An argument of a [print] call. *)
Inductive pyval : Type :=
| PStr (s : string)
| PInt (n : nat)
| PFloat (x : R)
| PList (l : list R).

(** Standard output as the sequence of [print] calls, each with its
    arguments; how a float is formatted is left out. *)
Definition stdout : Type := list (list pyval).

(** The escape [\n] inside a string literal. *)
Definition newline : string :=
  String "010"%char EmptyString.

(** The slice [l[:k]]. *)
Definition slice_to (k : nat) (l : list R) : list R := firstn k l.

(** The slice [l[-k:]]: it starts [k] places before the end, or at the
    start of a shorter list. *)
Definition slice_last (k : nat) (l : list R) : list R :=
  skipn (length l - k) l.

(** The loop of [recurrence_simulation] together with what it prints. *)
Fixpoint for_range_print (Q : list (list R)) (s0 : list R) (epsilon : R)
    (n t : nat) (state distances : list R) : loop_exit * stdout :=
  match n with
  | O => (Done state distances, [])
  | S n' =>
      let state := evolve_state state Q in
      let dist := Vec.norm (Vec.sub state s0) in
      let distances := distances ++ [dist] in
      if Rlt_dec dist epsilon then
        (Return (Some t, dist, distances),
         [[PStr "[SUCCESS] Recurrence achieved at step"; PInt t];
          [PStr "Distance from initial state:"; PFloat dist]])
      else for_range_print Q s0 epsilon n' (S t) state distances
  end.

(** [recurrence_simulation(dim, steps, epsilon)] together with what it
    prints.  In the last [print] the argument [distances[-1]] is evaluated
    before anything is written. *)
Definition recurrence_simulation_print
    (np : Numpy) (dim steps : nat) (epsilon : R) : result outcome * stdout :=
  let rng := default_rng np 42 in
  let '(s0, rng) := random np rng dim in
  let s0 := normalize s0 in
  let '(M, rng) := standard_normal np rng (dim, dim) in
  let '(Q, _) := linalg_qr np M in
  let state := s0 in
  let distances := [] in
  match for_range_print Q s0 epsilon steps 1 state distances with
  | (Return r, out) => (Ok r, out)
  | (Done _ distances, out) =>
      let out := out ++ [[PStr "[WARNING] Recurrence threshold not reached."]] in
      match getitem_last distances with
      | Some d =>
          (Ok (None, d, distances), out ++ [[PStr "Final distance:"; PFloat d]])
      | None => (Raise IndexError, out)
      end
  end.

(** The first line the script prints. *)
Definition banner : string :=
  append newline
    (append
       "=== Omniscientrix-vOmega Verification: Cosmic Recurrence Law (Ω0) ==="
       newline).

(** What a call prints, read off what it returns or raises. *)
Definition expected_output (r : result outcome) : stdout :=
  match r with
  | Ok (Some t, d, _) =>
      [[PStr "[SUCCESS] Recurrence achieved at step"; PInt t];
       [PStr "Distance from initial state:"; PFloat d]]
  | Ok (None, d, _) =>
      [[PStr "[WARNING] Recurrence threshold not reached."];
       [PStr "Final distance:"; PFloat d]]
  | Raise _ => [[PStr "[WARNING] Recurrence threshold not reached."]]
  end.

(** The lines printed after the call returns [hist]. *)
Definition report (hist : list R) : stdout :=
  [[PStr (append newline "Verification complete.")];
   [PStr "First 10 distances:"; PList (slice_to 10 hist)];
   [PStr "Last 10 distances:"; PList (slice_last 10 hist)];
   [PStr (append newline "Interpretation:")];
   [PStr "If step != None, recurrence verified."];
   [PStr (append
            "If None, recurrence not detected within step limit but still possible."
            newline)]].

(** The block under [if __name__ == "__main__"]: the call uses the
    defaults [dim=300, steps=5000, epsilon=1e-3]; an exception ends the
    script with what was printed so far. *)
Definition script_main (np : Numpy) : result unit * stdout :=
  let out := [[PStr banner]] in
  match recurrence_simulation_print np 300 5000 (1 / 1000) with
  | (Ok (step, dist, hist), printed) => (Ok tt, out ++ printed ++ report hist)
  | (Raise e, printed) => (Raise e, out ++ printed)
  end.

(** ** Facts about sums and clipping *)

Lemma FLOOR_pos : 0 < FLOOR.
Proof. unfold FLOOR. apply Rdiv_lt_0_compat; [lra | apply pow_lt; lra]. Qed.

Lemma FLOOR_lt_1 : FLOOR < 1.
Proof.
  unfold FLOOR. apply Rmult_lt_reg_r with (10 ^ 15); [apply pow_lt; lra|].
  unfold Rdiv. rewrite Rmult_assoc, Rinv_l by (apply pow_nonzero; lra).
  lra.
Qed.

Lemma FLOOR_small : FLOOR <= 1 / 1000.
Proof. unfold FLOOR. simpl. lra. Qed.

Lemma sum_cons x v : Vec.sum (x :: v) = x + Vec.sum v.
Proof. reflexivity. Qed.

Lemma sum_app u v : Vec.sum (u ++ v) = Vec.sum u + Vec.sum v.
Proof. induction u as [|x u IH]; simpl; [lra | rewrite IH; lra]. Qed.

Lemma sum_scale_div v c : Vec.sum (Vec.scale_div v c) = Vec.sum v / c.
Proof.
  induction v as [|x v IH]; simpl.
  - unfold Rdiv. now rewrite Rmult_0_l.
  - rewrite IH. unfold Rdiv. ring.
Qed.

Lemma sum_ge_length v lo :
  Forall (fun x => lo <= x) v -> INR (length v) * lo <= Vec.sum v.
Proof.
  induction 1 as [|x v Hx _ IH].
  - simpl. lra.
  - change (length (x :: v)) with (S (length v)).
    rewrite S_INR, sum_cons. lra.
Qed.

Lemma sum_le_length v hi :
  Forall (fun x => x <= hi) v -> Vec.sum v <= INR (length v) * hi.
Proof.
  induction 1 as [|x v Hx _ IH].
  - simpl. lra.
  - change (length (x :: v)) with (S (length v)).
    rewrite S_INR, sum_cons. lra.
Qed.

Lemma clip_length v lo : length (Vec.clip v lo) = length v.
Proof. apply length_map. Qed.

Lemma clip_ge v lo : Forall (fun x => lo <= x) (Vec.clip v lo).
Proof.
  unfold Vec.clip. apply Forall_forall. intros y Hy.
  apply in_map_iff in Hy as [x [<- _]]. apply Rmax_r.
Qed.

Lemma clip_id v lo : Forall (fun x => lo <= x) v -> Vec.clip v lo = v.
Proof.
  induction 1 as [|x v Hx _ IH]; simpl; [reflexivity|].
  rewrite IH. f_equal. now apply Rmax_left.
Qed.

Lemma sum_clip_pos v :
  v <> [] -> 0 < Vec.sum (Vec.clip v FLOOR).
Proof.
  intros Hv.
  pose proof (sum_ge_length _ _ (clip_ge v FLOOR)) as H.
  rewrite clip_length in H.
  assert (0 < INR (length v)).
  { apply lt_0_INR. destruct v; [congruence | simpl; lia]. }
  pose proof FLOOR_pos.
  assert (0 < INR (length v) * FLOOR) by now apply Rmult_lt_0_compat.
  lra.
Qed.



Lemma sum_nonneg v : Forall (fun x => 0 <= x) v -> 0 <= Vec.sum v.
Proof. induction 1; simpl; lra. Qed.

Lemma entry_le_sum v x :
  Forall (fun y => 0 <= y) v -> In x v -> x <= Vec.sum v.
Proof.
  induction 1 as [|y v Hy Hv IH]; simpl; [tauto|].
  pose proof (sum_nonneg v Hv).
  intros [-> | Hin]; [lra | specialize (IH Hin); lra].
Qed.

(** ** The normalizer *)

Lemma normalize_length v : length (normalize v) = length v.
Proof. unfold normalize, Vec.scale_div, Vec.clip. now rewrite !length_map. Qed.

Lemma normalize_nil : normalize [] = [].
Proof. reflexivity. Qed.

Lemma normalize_eq_contract v : normalize v = normalize_contract v.
Proof.
  unfold normalize, normalize_contract, Vec.scale_div, Vec.clip.
  now rewrite map_map.
Qed.

Lemma normalize_sum v : v <> [] -> Vec.sum (normalize v) = 1.
Proof.
  intros Hv. unfold normalize. rewrite sum_scale_div.
  pose proof (sum_clip_pos v Hv). unfold Rdiv. apply Rinv_r. lra.
Qed.

Lemma normalize_entry_ge v :
  v <> [] ->
  Forall (fun y => FLOOR / Vec.sum (Vec.clip v FLOOR) <= y) (normalize v).
Proof.
  intros Hv. pose proof (sum_clip_pos v Hv) as HS.
  unfold normalize, Vec.scale_div. apply Forall_forall. intros y Hy.
  apply in_map_iff in Hy as [c [<- Hc]].
  pose proof (proj1 (Forall_forall _ _) (clip_ge v FLOOR) c Hc) as Hge.
  unfold Rdiv. apply Rmult_le_compat_r; [|exact Hge].
  left. now apply Rinv_0_lt_compat.
Qed.

Lemma normalize_entry_pos v :
  v <> [] -> Forall (fun y => 0 < y) (normalize v).
Proof.
  intros Hv. pose proof (sum_clip_pos v Hv) as HS.
  eapply Forall_impl; [|exact (normalize_entry_ge v Hv)].
  intros y Hy. simpl in Hy.
  assert (0 < FLOOR / Vec.sum (Vec.clip v FLOOR))
    by (apply Rdiv_lt_0_compat; [exact FLOOR_pos | exact HS]).
  lra.
Qed.

Lemma length_nonempty (v : list R) dim :
  (1 <= dim)%nat -> length v = dim -> v <> [].
Proof. intros Hd Hl ->. simpl in Hl. lia. Qed.

(** A vector whose entries are at least the floor and sum to one is left
    as it is. *)
Lemma normalize_fixed w :
  Forall (fun y => FLOOR <= y) w -> Vec.sum w = 1 -> normalize w = w.
Proof.
  intros Hge Hsum. unfold normalize. rewrite (clip_id w FLOOR Hge), Hsum.
  unfold Vec.scale_div. rewrite <- (map_id w) at 2.
  apply map_ext. intros x. unfold Rdiv. rewrite Rinv_1. ring.
Qed.










(** ** Idempotence of the normalizer *)










(** ** The invariant of the state vector *)

Lemma dot_cons a u b v : Vec.dot (a :: u) (b :: v) = a * b + Vec.dot u v.
Proof. reflexivity. Qed.

Lemma dot_self_nonneg u : 0 <= Vec.dot u u.
Proof.
  induction u as [|a u IH]; [unfold Vec.dot; simpl; lra|].
  rewrite dot_cons. nra.
Qed.

(** An entry of a row of unit length is at most one. *)
Lemma unit_row_entry_le u :
  Vec.dot u u = 1 -> Forall (fun q => q <= 1) u.
Proof.
  intros Hu. assert (H : Forall (fun q => q * q <= Vec.dot u u) u).
  { clear Hu. induction u as [|a u IH]; constructor.
    - rewrite dot_cons. pose proof (dot_self_nonneg u). lra.
    - eapply Forall_impl; [|exact IH]. simpl. intros q Hq.
      rewrite dot_cons. nra. }
  eapply Forall_impl; [|exact H]. simpl. intros q Hq. nra.
Qed.

(** A row with entries at most one maps a non-negative vector to at most
    the sum of that vector. *)
Lemma dot_le_sum u : forall s,
  Forall (fun q => q <= 1) u -> Forall (fun x => 0 <= x) s ->
  Vec.dot u s <= Vec.sum s.
Proof.
  induction u as [|q u IH]; intros s Hu Hs.
  - change (Vec.dot [] s) with 0. now apply sum_nonneg.
  - destruct s as [|x s]; [unfold Vec.dot; simpl; lra|].
    inversion Hu as [|? ? Hq Hu']; inversion Hs as [|? ? Hx Hs']; subst.
    rewrite dot_cons, sum_cons. specialize (IH s Hu' Hs'). nra.
Qed.

Lemma matvec_length M s : length (Vec.matvec M s) = length M.
Proof. apply length_map. Qed.

Lemma matvec_entry_le M s :
  unit_rows M -> Forall (fun x => 0 <= x) s -> Vec.sum s = 1 ->
  Forall (fun y => y <= 1) (Vec.matvec M s).
Proof.
  intros HM Hs Hsum. unfold Vec.matvec. apply Forall_forall. intros y Hy.
  apply in_map_iff in Hy as [row [<- Hrow]].
  rewrite <- Hsum. apply dot_le_sum; [|exact Hs].
  apply unit_row_entry_le. exact (proj1 (Forall_forall _ _) HM row Hrow).
Qed.

(** Normalising a vector of [dim >= 1] entries, none above one, leaves no
    entry under the floor divided by [dim]. *)
Lemma normalize_entry_ge_dim v dim :
  (1 <= dim)%nat -> length v = dim -> Forall (fun x => x <= 1) v ->
  Forall (fun y => FLOOR / INR dim <= y) (normalize v).
Proof.
  intros Hdim Hlen Hle.
  pose proof (length_nonempty v dim Hdim Hlen) as Hv.
  pose proof (sum_clip_pos v Hv) as HS. pose proof FLOOR_pos as Hf.
  pose proof FLOOR_lt_1 as Hf1.
  assert (HSle : Vec.sum (Vec.clip v FLOOR) <= INR dim).
  { rewrite <- Hlen, <- (clip_length v FLOOR), <- (Rmult_1_r (INR _)).
    apply sum_le_length. unfold Vec.clip. apply Forall_forall. intros y Hy.
    apply in_map_iff in Hy as [x [<- Hx]]. apply Rmax_lub; [|lra].
    exact (proj1 (Forall_forall _ _) Hle x Hx). }
  eapply Forall_impl; [|exact (normalize_entry_ge v Hv)].
  intros y Hy. simpl in Hy.
  assert (FLOOR / INR dim <= FLOOR / Vec.sum (Vec.clip v FLOOR)); [|lra].
  unfold Rdiv. apply Rmult_le_compat_l; [lra|].
  apply Rinv_le_contravar; assumption.
Qed.

Lemma floor_over_dim_pos dim : (1 <= dim)%nat -> 0 < FLOOR / INR dim.
Proof.
  intros Hdim. apply Rdiv_lt_0_compat; [exact FLOOR_pos|].
  apply lt_0_INR. lia.
Qed.

Lemma state_at_shape np dim :
  (1 <= dim)%nat ->
  length (initial_draw np dim) = dim ->
  length (transform np dim) = dim ->
  forall k,
    length (state_at np dim k) = dim /\
    Vec.sum (state_at np dim k) = 1 /\
    Forall (fun x => 0 < x) (state_at np dim k).
Proof.
  intros Hdim Hlen HQlen k.
  assert (Hnorm : forall v, length v = dim ->
            length (normalize v) = dim /\ Vec.sum (normalize v) = 1 /\
            Forall (fun x => 0 < x) (normalize v)).
  { intros v Hv. pose proof (length_nonempty v dim Hdim Hv) as Hne.
    split; [now rewrite normalize_length | split].
    - now apply normalize_sum.
    - now apply normalize_entry_pos. }
  destruct k as [|k]; cbn [state_at].
  - apply Hnorm, Hlen.
  - apply Hnorm. now rewrite matvec_length.
Qed.

(** C2: in a run with [dim >= 1], where the uniform draw has [dim] entries
    and the transform [dim] rows, the initial state and the state after
    every application of the stepper have [dim] entries that sum to
    exactly 1 and are each strictly positive; when moreover the draw lies
    in [0, 1) and the rows of the transform have unit length, as NumPy
    provides, each entry is at least the positive floor [1e-15 / dim]. *)
Theorem state_invariant (np : Numpy) (dim : nat) :
  (1 <= dim)%nat ->
  length (initial_draw np dim) = dim ->
  length (transform np dim) = dim ->
  (forall k,
     length (state_at np dim k) = dim /\
     Vec.sum (state_at np dim k) = 1 /\
     Forall (fun x => 0 < x) (state_at np dim k)) /\
  (Forall (fun u => 0 <= u < 1) (initial_draw np dim) ->
   unit_rows (transform np dim) ->
   0 < FLOOR / INR dim /\
   forall k, Forall (fun x => FLOOR / INR dim <= x) (state_at np dim k)).
Proof.
  intros Hdim Hlen HQlen.
  pose proof (state_at_shape np dim Hdim Hlen HQlen) as Hshape.
  split; [exact Hshape|].
  intros Hdraw HQ. split; [now apply floor_over_dim_pos|].
  intros [|k]; cbn [state_at].
  - apply normalize_entry_ge_dim; [exact Hdim | exact Hlen|].
    eapply Forall_impl; [|exact Hdraw]. simpl. intros u Hu. lra.
  - destruct (Hshape k) as (_ & Hsum & Hpos).
    apply normalize_entry_ge_dim; [exact Hdim | now rewrite matvec_length|].
    apply matvec_entry_le; [exact HQ | | exact Hsum].
    eapply Forall_impl; [|exact Hpos]. simpl. intros x Hx. lra.
Qed.

Lemma state_invariant_witness :
  (forall k,
     length (state_at np_still 2 k) = 2%nat /\
     Vec.sum (state_at np_still 2 k) = 1 /\
     Forall (fun x => 0 < x) (state_at np_still 2 k)) /\
  0 < FLOOR / INR 2 /\
  forall k, Forall (fun x => FLOOR / INR 2 <= x) (state_at np_still 2 k).
Proof.
  assert (Hdim : (1 <= 2)%nat) by lia.
  assert (Hlen : length (initial_draw np_still 2) = 2%nat) by reflexivity.
  assert (HQlen : length (transform np_still 2) = 2%nat) by reflexivity.
  destruct (state_invariant np_still 2 Hdim Hlen HQlen) as [Hshape Hfloor].
  split; [exact Hshape|].
  apply Hfloor.
  - cbn. constructor; [lra | constructor; [lra | constructor]].
  - unfold unit_rows. cbn.
    constructor; [unfold Vec.dot; simpl; ring|].
    constructor; [unfold Vec.dot; simpl; ring | constructor].
Defined.

(** ** The driver loop *)

Lemma getitem_last_snoc l x : getitem_last (l ++ [x]) = Some x.
Proof.
  induction l as [|y l IH]; [reflexivity|].
  simpl. rewrite IH. now destruct (l ++ [x]) eqn:E; [destruct l; discriminate|].
Qed.

Lemma getitem_last_nil_iff l : getitem_last l = None <-> l = [].
Proof.
  split; [|now intros ->].
  induction l as [|x l IH]; [reflexivity|].
  simpl. destruct l; [discriminate|]. intros H. specialize (IH H). discriminate.
Qed.

Lemma history_upto_S np dim n :
  history_upto np dim (S n) = history_upto np dim n ++ [distance_at np dim (S n)].
Proof. unfold history_upto. now rewrite seq_S, map_app. Qed.

Lemma history_upto_length np dim n : length (history_upto np dim n) = n.
Proof. unfold history_upto. now rewrite length_map, length_seq. Qed.

Lemma history_upto_last np dim n :
  (1 <= n)%nat ->
  getitem_last (history_upto np dim n) = Some (distance_at np dim n).
Proof.
  destruct n as [|n]; [lia|]. intros _.
  rewrite history_upto_S. apply getitem_last_snoc.
Qed.

Lemma distance_at_nonneg np dim k : 0 <= distance_at np dim k.
Proof. unfold distance_at, Vec.norm. apply sqrt_pos. Qed.

Section Driver.

Variable np : Numpy.
Variable dim : nat.
Variable epsilon : R.

Let Q := transform np dim.
Let s0 := initial_state np dim.
Let dist := distance_at np dim.

(** The loop entered after step [j] with history [acc] either returns at
    the first later step whose distance is under [epsilon], or runs its [n]
    iterations without meeting one. *)
Lemma for_range_spec n : forall j acc,
  (exists t, (j < t <= j + n)%nat /\ dist t < epsilon /\
      (forall k, (j < k < t)%nat -> ~ dist k < epsilon) /\
      for_range Q s0 epsilon n (S j) (state_at np dim j) acc =
      Return (Some t, dist t, acc ++ map dist (seq (S j) (t - j)))) \/
  ((forall k, (j < k <= j + n)%nat -> ~ dist k < epsilon) /\
   for_range Q s0 epsilon n (S j) (state_at np dim j) acc =
   Done (state_at np dim (j + n)) (acc ++ map dist (seq (S j) n))).
Proof.
  induction n as [|n IH]; intros j acc.
  - right. split; [intros k Hk; lia|].
    simpl. now rewrite Nat.add_0_r, app_nil_r.
  - cbn [for_range].
    change (evolve_state (state_at np dim j) Q) with (state_at np dim (S j)).
    change (Vec.norm (Vec.sub (state_at np dim (S j)) s0)) with (dist (S j)).
    destruct (Rlt_dec (dist (S j)) epsilon) as [Hlt | Hge].
    + left. exists (S j).
      split; [lia | split; [exact Hlt | split]].
      * intros k Hk; lia.
      * replace (S j - j)%nat with 1%nat by lia. reflexivity.
    + destruct (IH (S j) (acc ++ [dist (S j)]))
        as [(t & Ht & Hlt & Hfirst & Heq) | (Hnone & Heq)].
      * left. exists t.
        split; [lia | split; [exact Hlt | split]].
        -- intros k Hk. destruct (Nat.eq_dec k (S j)) as [-> | Hne];
             [exact Hge | apply Hfirst; lia].
        -- rewrite Heq. replace (t - j)%nat with (S (t - S j)) by lia.
           cbn [seq map]. now rewrite <- app_assoc.
      * right. split.
        -- intros k Hk. destruct (Nat.eq_dec k (S j)) as [-> | Hne];
             [exact Hge | apply Hnone; lia].
        -- rewrite Heq. replace (j + S n)%nat with (S j + n)%nat by lia.
           cbn [seq map]. now rewrite <- app_assoc.
Qed.

Lemma recurrence_simulation_unfold steps :
  recurrence_simulation np dim steps epsilon =
  match for_range Q s0 epsilon steps 1 s0 [] with
  | Return r => Ok r
  | Done _ distances =>
      match getitem_last distances with
      | Some d => Ok (None, d, distances)
      | None => Raise IndexError
      end
  end.
Proof.
  unfold recurrence_simulation, Q, s0, transform, initial_state, initial_draw.
  destruct (random np (default_rng np 42) dim) as [draw rng].
  cbn [fst snd].
  destruct (standard_normal np rng (dim, dim)) as [M rng'].
  cbn [fst snd].
  destruct (linalg_qr np M) as [Q' R']. reflexivity.
Qed.

(** The three ways a call ends. *)
Lemma recurrence_simulation_cases steps :
  (exists t, (1 <= t <= steps)%nat /\ dist t < epsilon /\
      (forall k, (1 <= k < t)%nat -> ~ dist k < epsilon) /\
      recurrence_simulation np dim steps epsilon =
      Ok (Some t, dist t, history_upto np dim t)) \/
  ((1 <= steps)%nat /\
   (forall k, (1 <= k <= steps)%nat -> ~ dist k < epsilon) /\
   recurrence_simulation np dim steps epsilon =
   Ok (None, dist steps, history_upto np dim steps)) \/
  (steps = 0%nat /\
   recurrence_simulation np dim steps epsilon = Raise IndexError).
Proof.
  rewrite recurrence_simulation_unfold.
  destruct (for_range_spec steps 0 [])
    as [(t & Ht & Hlt & Hfirst & Heq) | (Hnone & Heq)].
  - left. exists t.
    split; [lia | split; [exact Hlt | split]].
    + intros k Hk. apply Hfirst. lia.
    + change (state_at np dim 0) with s0 in Heq. rewrite Heq.
      rewrite Nat.sub_0_r. reflexivity.
  - change (state_at np dim 0) with s0 in Heq. rewrite Heq. cbn [app].
    change (map dist (seq 1 steps)) with (history_upto np dim steps).
    destruct steps as [|n].
    + right. right. split; reflexivity.
    + right. left. split; [lia | split].
      * intros k Hk. apply Hnone. lia.
      * now rewrite history_upto_last by lia.
Qed.

End Driver.

(** ** What the driver returns *)

Lemma recurrence_simulation_returns np dim steps epsilon :
  (1 <= steps)%nat ->
  exists r, recurrence_simulation np dim steps epsilon =
            Ok (r, distance_at np dim (steps_executed steps r),
                history_upto np dim (steps_executed steps r)) /\
            (forall t, r = Some t -> (1 <= t <= steps)%nat).
Proof.
  intros Hsteps.
  destruct (recurrence_simulation_cases np dim epsilon steps)
    as [(t & Ht & _ & _ & Heq) | [(_ & _ & Heq) | (H0 & _)]].
  - exists (Some t). split; [exact Heq|]. intros t' [= <-]. exact Ht.
  - exists None. split; [exact Heq|]. discriminate.
  - lia.
Qed.

(** C1: for a budget [steps >= 1] the driver returns [(t, d, history)]
    exactly when step [t] is the first step whose Euclidean distance to
    the initial state is below [epsilon], [d] being that distance and the
    history the distances of steps [1..t]; it returns [(None, d, history)]
    exactly when no step of the budget has a distance below [epsilon], [d]
    being the distance of the last step and the history the distances of
    all [steps] steps.  The dimension plays no part. *)
Theorem recurrence_simulation_first_return
    (np : Numpy) (dim steps : nat) (epsilon : R) :
  (1 <= steps)%nat ->
  (forall t d h,
     recurrence_simulation np dim steps epsilon = Ok (Some t, d, h) <->
     (1 <= t <= steps)%nat /\
     distance_at np dim t < epsilon /\
     (forall k, (1 <= k < t)%nat -> ~ distance_at np dim k < epsilon) /\
     d = distance_at np dim t /\ h = history_upto np dim t) /\
  (forall d h,
     recurrence_simulation np dim steps epsilon = Ok (None, d, h) <->
     (forall k, (1 <= k <= steps)%nat -> ~ distance_at np dim k < epsilon) /\
     d = distance_at np dim steps /\ h = history_upto np dim steps).
Proof.
  intros Hsteps.
  pose proof (recurrence_simulation_cases np dim epsilon steps) as Hcases.
  split.
  - intros t d h. split.
    + intros Hrun.
      destruct Hcases
        as [(t' & Ht & Hlt & Hfirst & Heq) | [(_ & _ & Heq) | (H0 & _)]].
      * rewrite Heq in Hrun. injection Hrun as <- <- <-. tauto.
      * rewrite Heq in Hrun. discriminate.
      * lia.
    + intros (Ht & Hlt & Hfirst & -> & ->).
      destruct Hcases
        as [(t' & Ht' & Hlt' & Hfirst' & Heq) | [(_ & Hnone & _) | (H0 & _)]].
      * assert (t' = t) as ->; [|exact Heq].
        destruct (Nat.lt_trichotomy t' t) as [Hl | [He | Hg]].
        -- exfalso. apply (Hfirst t'); [lia | exact Hlt'].
        -- exact He.
        -- exfalso. apply (Hfirst' t); [lia | exact Hlt].
      * exfalso. apply (Hnone t); [lia | exact Hlt].
      * lia.
  - intros d h. split.
    + intros Hrun.
      destruct Hcases
        as [(t' & _ & _ & _ & Heq) | [(_ & Hnone & Heq) | (H0 & _)]].
      * rewrite Heq in Hrun. discriminate.
      * rewrite Heq in Hrun. injection Hrun as <- <-. tauto.
      * lia.
    + intros (Hnone & -> & ->).
      destruct Hcases
        as [(t' & Ht' & Hlt' & _ & _) | [(_ & _ & Heq) | (H0 & _)]].
      * exfalso. apply (Hnone t'); [lia | exact Hlt'].
      * exact Heq.
      * lia.
Qed.

(** C5 evaluated at a zero budget: the loop body never runs, the history
    is empty, and [distances[-1]] raises [IndexError]. *)
Theorem recurrence_simulation_zero_budget
    (np : Numpy) (dim : nat) (epsilon : R) :
  recurrence_simulation np dim 0 epsilon = Raise IndexError.
Proof.
  destruct (recurrence_simulation_cases np dim epsilon 0)
    as [(t & Ht & _) | [(H1 & _) | (_ & Heq)]]; [lia | lia | exact Heq].
Qed.

(** C6: with [epsilon = 0] and a budget [steps >= 1] the driver returns
    [None] as step index, whatever the dimension: a Euclidean distance is
    never below zero. *)
Theorem recurrence_simulation_epsilon_zero (np : Numpy) (dim steps : nat) :
  (1 <= steps)%nat ->
  recurrence_simulation np dim steps 0 =
  Ok (None, distance_at np dim steps, history_upto np dim steps).
Proof.
  intros Hsteps.
  destruct (recurrence_simulation_cases np dim 0 steps)
    as [(t & _ & Hlt & _) | [(_ & _ & Heq) | (H0 & _)]].
  - pose proof (distance_at_nonneg np dim t). lra.
  - exact Heq.
  - lia.
Qed.

(** C7: a call with budget [steps >= 1] returns, and whenever a call
    returns, its history has one entry per executed step (the returned
    step index on success, the whole budget on exhaustion) and is no
    longer than the budget. *)
Theorem history_length_is_steps_executed
    (np : Numpy) (dim steps : nat) (epsilon : R) :
  ((1 <= steps)%nat ->
   exists r d h, recurrence_simulation np dim steps epsilon = Ok (r, d, h)) /\
  (forall r d h,
     recurrence_simulation np dim steps epsilon = Ok (r, d, h) ->
     length h = steps_executed steps r /\ (length h <= steps)%nat).
Proof.
  split.
  - intros Hsteps.
    destruct (recurrence_simulation_returns np dim steps epsilon Hsteps)
      as (r & Heq & _).
    eauto.
  - intros r d h Hrun.
    destruct (recurrence_simulation_cases np dim epsilon steps)
      as [(t & Ht & _ & _ & Heq) | [(_ & _ & Heq) | (_ & Heq)]];
      rewrite Heq in Hrun; [| |discriminate];
      injection Hrun as <- <- <-; rewrite history_upto_length; simpl; lia.
Qed.

(** C10: a call with budget [steps >= 1] returns a triple whose distance is
    the last entry of its history, in both outcomes; on success the step
    index [t] lies in [1..steps] and the history has exactly [t] entries. *)
Theorem returned_distance_is_last_of_history
    (np : Numpy) (dim steps : nat) (epsilon : R) :
  (1 <= steps)%nat ->
  exists r d h,
    recurrence_simulation np dim steps epsilon = Ok (r, d, h) /\
    getitem_last h = Some d /\
    (forall t, r = Some t -> (1 <= t <= steps)%nat /\ length h = t).
Proof.
  intros Hsteps.
  destruct (recurrence_simulation_cases np dim epsilon steps)
    as [(t & Ht & _ & _ & Heq) | [(_ & _ & Heq) | (H0 & _)]].
  - exists (Some t), (distance_at np dim t), (history_upto np dim t).
    split; [exact Heq | split].
    + apply history_upto_last. lia.
    + intros t' [= <-]. split; [exact Ht | apply history_upto_length].
  - exists None, (distance_at np dim steps), (history_upto np dim steps).
    split; [exact Heq | split].
    + now apply history_upto_last.
    + discriminate.
  - lia.
Qed.

(** ** The driver on concrete data *)

Lemma normalize_quarters a b :
  FLOOR <= a -> FLOOR <= b -> a + b = 1 -> normalize [a; b] = [a; b].
Proof.
  intros Ha Hb Hab. apply normalize_fixed.
  - constructor; [exact Ha | constructor; [exact Hb | constructor]].
  - simpl. lra.
Qed.

Lemma initial_state_swap : initial_state np_swap 2 = [1 / 4; 3 / 4].
Proof.
  pose proof FLOOR_small.
  unfold initial_state, initial_draw. cbn.
  apply normalize_quarters; lra.
Qed.

Lemma transform_swap : transform np_swap 2 = [[0; 1]; [1; 0]].
Proof. reflexivity. Qed.

Lemma evolve_swap a b :
  FLOOR <= a -> FLOOR <= b -> a + b = 1 ->
  evolve_state [a; b] [[0; 1]; [1; 0]] = [b; a].
Proof.
  intros Ha Hb Hab. unfold evolve_state, Vec.matvec, Vec.dot. simpl.
  replace (0 * a + (1 * b + 0)) with b by ring.
  replace (1 * a + (0 * b + 0)) with a by ring.
  apply normalize_quarters; lra.
Qed.

Lemma distance_swap_odd :
  Vec.norm (Vec.sub [3 / 4; 1 / 4] [1 / 4; 3 / 4]) = sqrt (1 / 2).
Proof. unfold Vec.norm, Vec.sub. simpl. f_equal. lra. Qed.

Lemma distance_swap_even :
  Vec.norm (Vec.sub [1 / 4; 3 / 4] [1 / 4; 3 / 4]) = 0.
Proof.
  unfold Vec.norm, Vec.sub. simpl.
  replace (_ + _) with 0 by lra. apply sqrt_0.
Qed.

Lemma sqrt_half_large : ~ sqrt (1 / 2) < 1 / 1000.
Proof.
  intros H. assert (H2 : sqrt (1 / 2) * sqrt (1 / 2) = 1 / 2)
    by (apply sqrt_sqrt; lra).
  pose proof (sqrt_pos (1 / 2)). nra.
Qed.

(** With the swapping transform the state is back at its start after two
    steps: the run succeeds at step 2. *)
Example recurrence_simulation_swap_returns :
  recurrence_simulation np_swap 2 5 (1 / 1000) =
  Ok (Some 2%nat, 0, [sqrt (1 / 2); 0]).
Proof.
  pose proof FLOOR_small.
  rewrite recurrence_simulation_unfold.
  rewrite initial_state_swap, transform_swap.
  cbn [for_range].
  rewrite (evolve_swap (1 / 4) (3 / 4)) by lra.
  rewrite distance_swap_odd.
  destruct (Rlt_dec (sqrt (1 / 2)) (1 / 1000)) as [Hlt | _];
    [now apply sqrt_half_large in Hlt|].
  rewrite (evolve_swap (3 / 4) (1 / 4)) by lra.
  rewrite distance_swap_even.
  destruct (Rlt_dec 0 (1 / 1000)) as [_ | Hge]; [reflexivity | lra].
Qed.

(** With a budget of one step the same run is exhausted. *)
Example recurrence_simulation_swap_exhausted :
  recurrence_simulation np_swap 2 1 (1 / 1000) =
  Ok (None, sqrt (1 / 2), [sqrt (1 / 2)]).
Proof.
  pose proof FLOOR_small.
  rewrite recurrence_simulation_unfold.
  rewrite initial_state_swap, transform_swap.
  cbn [for_range].
  rewrite (evolve_swap (1 / 4) (3 / 4)) by lra.
  rewrite distance_swap_odd.
  destruct (Rlt_dec (sqrt (1 / 2)) (1 / 1000)) as [Hlt | _];
    [now apply sqrt_half_large in Hlt|].
  reflexivity.
Qed.

(** Dividing by a sum above one can leave an entry under [1e-15] itself:
    the floor that survives normalisation is the clamping floor over the
    sum. *)
Remark normalize_entry_below_FLOOR :
  normalize [9 / 10; 9 / 10; 0] =
  [9 / 10 / (18 / 10 + FLOOR); 9 / 10 / (18 / 10 + FLOOR);
   FLOOR / (18 / 10 + FLOOR)] /\
  FLOOR / (18 / 10 + FLOOR) < FLOOR.
Proof.
  pose proof FLOOR_pos as Hf. pose proof FLOOR_small as Hf1. split.
  - unfold normalize, Vec.clip, Vec.scale_div. simpl.
    rewrite (Rmax_left (9 / 10) FLOOR) by lra.
    rewrite (Rmax_right 0 FLOOR) by lra.
    replace (9 / 10 + (9 / 10 + (FLOOR + 0))) with (18 / 10 + FLOOR) by lra.
    reflexivity.
  - apply Rmult_lt_reg_r with (18 / 10 + FLOOR); [lra|].
    unfold Rdiv at 1. rewrite Rmult_assoc, Rinv_l by lra. nra.
Qed.

(** ** The theorems about the driver at the swapping run *)

Lemma recurrence_simulation_first_return_witness :
  (1 <= 5)%nat /\
  (1 <= 2 <= 5)%nat /\
  distance_at np_swap 2 2 < 1 / 1000 /\
  (forall k, (1 <= k < 2)%nat -> ~ distance_at np_swap 2 k < 1 / 1000) /\
  0 = distance_at np_swap 2 2 /\
  [sqrt (1 / 2); 0] = history_upto np_swap 2 2.
Proof.
  assert (H : (1 <= 5)%nat) by lia.
  split; [exact H|].
  apply (proj1 (recurrence_simulation_first_return np_swap 2 5 (1 / 1000) H)).
  exact recurrence_simulation_swap_returns.
Defined.

Lemma recurrence_simulation_epsilon_zero_witness :
  (1 <= 3)%nat /\
  recurrence_simulation np_swap 2 3 0 =
  Ok (None, distance_at np_swap 2 3, history_upto np_swap 2 3).
Proof.
  assert (H : (1 <= 3)%nat) by lia.
  split; [exact H|].
  exact (recurrence_simulation_epsilon_zero np_swap 2 3 H).
Defined.

Lemma history_length_is_steps_executed_witness :
  (exists r d h,
     recurrence_simulation np_swap 2 5 (1 / 1000) = Ok (r, d, h)) /\
  length [sqrt (1 / 2); 0] = steps_executed 5 (Some 2%nat) /\
  (length [sqrt (1 / 2); 0]%R <= 5)%nat.
Proof.
  split.
  - apply (proj1 (history_length_is_steps_executed np_swap 2 5 (1 / 1000))).
    lia.
  - apply (proj2 (history_length_is_steps_executed np_swap 2 5 (1 / 1000))
             (Some 2%nat) 0 [sqrt (1 / 2); 0]).
    exact recurrence_simulation_swap_returns.
Defined.

Lemma returned_distance_is_last_of_history_witness :
  (1 <= 1)%nat /\
  exists r d h,
    recurrence_simulation np_swap 2 1 (1 / 1000) = Ok (r, d, h) /\
    getitem_last h = Some d /\
    (forall t, r = Some t -> (1 <= t <= 1)%nat /\ length h = t).
Proof.
  assert (H : (1 <= 1)%nat) by lia.
  split; [exact H|].
  exact (returned_distance_is_last_of_history np_swap 2 1 (1 / 1000) H).
Defined.

(** ** Further properties of the normalizer *)

Lemma sum_repeat c n : Vec.sum (repeat c n) = INR n * c.
Proof.
  induction n as [|n IH]; [simpl; lra|].
  rewrite S_INR. cbn [repeat]. rewrite sum_cons, IH. lra.
Qed.


Lemma normalize_nth v i :
  (i < length v)%nat ->
  nth i (normalize v) 0 = Rmax (nth i v 0) FLOOR / Vec.sum (Vec.clip v FLOOR).
Proof.
  intros Hi. rewrite normalize_eq_contract. unfold normalize_contract.
  fold (Vec.clip v FLOOR).
  set (g := fun x => Rmax x FLOOR / Vec.sum (Vec.clip v FLOOR)).
  rewrite (nth_indep (map g v) 0 (g 0)) by now rewrite length_map.
  now rewrite map_nth.
Qed.





(** X3: normalising keeps the order of the entries: a position holding a
    smaller input holds a smaller (or equal) output. *)
Theorem normalize_monotone (v : list R) (i j : nat) :
  (i < length v)%nat -> (j < length v)%nat ->
  nth i v 0 <= nth j v 0 ->
  nth i (normalize v) 0 <= nth j (normalize v) 0.
Proof.
  intros Hi Hj Hle.
  assert (Hv : v <> []) by (destruct v; [simpl in Hi; lia | discriminate]).
  pose proof (sum_clip_pos v Hv) as HS.
  rewrite !normalize_nth by assumption.
  unfold Rdiv. apply Rmult_le_compat_r.
  - left. now apply Rinv_0_lt_compat.
  - apply Rmax_lub.
    + etransitivity; [exact Hle | apply Rmax_l].
    + apply Rmax_r.
Qed.

Lemma normalize_monotone_witness :
  nth 0 (normalize [1; 2]) 0 <= nth 1 (normalize [1; 2]) 0.
Proof.
  apply (normalize_monotone [1; 2] 0 1); simpl; [lia | lia | lra].
Defined.

(** ** Further properties of the driver *)

Lemma run_some_inv np dim steps epsilon t d h :
  recurrence_simulation np dim steps epsilon = Ok (Some t, d, h) ->
  (1 <= t <= steps)%nat /\
  distance_at np dim t < epsilon /\
  (forall k, (1 <= k < t)%nat -> ~ distance_at np dim k < epsilon) /\
  d = distance_at np dim t /\ h = history_upto np dim t.
Proof.
  intros Hrun.
  destruct (recurrence_simulation_cases np dim epsilon steps)
    as [(t' & Ht & Hlt & Hfirst & Heq) | [(_ & _ & Heq) | (_ & Heq)]];
    rewrite Heq in Hrun; [|discriminate | discriminate].
  injection Hrun as <- <- <-. tauto.
Qed.

Lemma run_none_inv np dim steps epsilon d h :
  recurrence_simulation np dim steps epsilon = Ok (None, d, h) ->
  (1 <= steps)%nat /\
  (forall k, (1 <= k <= steps)%nat -> ~ distance_at np dim k < epsilon) /\
  d = distance_at np dim steps /\ h = history_upto np dim steps.
Proof.
  intros Hrun.
  destruct (recurrence_simulation_cases np dim epsilon steps)
    as [(t' & _ & _ & _ & Heq) | [(Hs & Hnone & Heq) | (_ & Heq)]];
    rewrite Heq in Hrun; [discriminate | | discriminate].
  injection Hrun as <- <-. tauto.
Qed.

Lemma run_some_intro np dim steps epsilon t :
  (1 <= t <= steps)%nat ->
  distance_at np dim t < epsilon ->
  (forall k, (1 <= k < t)%nat -> ~ distance_at np dim k < epsilon) ->
  recurrence_simulation np dim steps epsilon =
  Ok (Some t, distance_at np dim t, history_upto np dim t).
Proof.
  intros Ht Hlt Hfirst.
  destruct (recurrence_simulation_cases np dim epsilon steps)
    as [(t' & Ht' & Hlt' & Hfirst' & Heq) | [(_ & Hnone & _) | (H0 & _)]].
  - assert (t' = t) as ->; [|exact Heq].
    destruct (Nat.lt_trichotomy t' t) as [Hl | [He | Hg]].
    + exfalso. apply (Hfirst t'); [lia | exact Hlt'].
    + exact He.
    + exfalso. apply (Hfirst' t); [lia | exact Hlt].
  - exfalso. apply (Hnone t); [lia | exact Hlt].
  - lia.
Qed.

Lemma run_none_intro np dim steps epsilon :
  (1 <= steps)%nat ->
  (forall k, (1 <= k <= steps)%nat -> ~ distance_at np dim k < epsilon) ->
  recurrence_simulation np dim steps epsilon =
  Ok (None, distance_at np dim steps, history_upto np dim steps).
Proof.
  intros Hs Hnone.
  destruct (recurrence_simulation_cases np dim epsilon steps)
    as [(t' & Ht' & Hlt' & _ & _) | [(_ & _ & Heq) | (H0 & _)]].
  - exfalso. apply (Hnone t'); [lia | exact Hlt'].
  - exact Heq.
  - lia.
Qed.

(** Some step of the budget is under [epsilon]: the run succeeds at the
    first such step. *)
Lemma run_hit np dim steps epsilon p :
  (1 <= p <= steps)%nat -> distance_at np dim p < epsilon ->
  exists t, (1 <= t <= p)%nat /\
    distance_at np dim t < epsilon /\
    (forall k, (1 <= k < t)%nat -> ~ distance_at np dim k < epsilon) /\
    recurrence_simulation np dim steps epsilon =
    Ok (Some t, distance_at np dim t, history_upto np dim t).
Proof.
  intros Hp Hlt.
  destruct (recurrence_simulation_cases np dim epsilon steps)
    as [(t & Ht & Hlt' & Hfirst & Heq) | [(_ & Hnone & _) | (H0 & _)]].
  - exists t. split; [|tauto].
    destruct (Nat.le_gt_cases t p) as [Hle | Hgt]; [lia|].
    exfalso. apply (Hfirst p); [lia | exact Hlt].
  - exfalso. apply (Hnone p); [lia | exact Hlt].
  - lia.
Qed.

Lemma history_upto_app np dim n m :
  history_upto np dim (n + m) =
  history_upto np dim n ++ map (distance_at np dim) (seq (S n) m).
Proof. unfold history_upto. now rewrite seq_app, map_app. Qed.

Lemma seq_firstn k : forall start n,
  firstn k (seq start n) = seq start (Nat.min k n).
Proof.
  induction k as [|k IH]; intros start [|n]; try reflexivity.
  cbn [seq firstn Nat.min]. now rewrite IH.
Qed.

Lemma seq_skipn k : forall start n,
  skipn k (seq start n) = seq (start + k) (n - k).
Proof.
  induction k as [|k IH]; intros start n.
  - now rewrite Nat.add_0_r, Nat.sub_0_r.
  - destruct n as [|n]; [reflexivity|].
    cbn [seq skipn]. rewrite IH. now rewrite Nat.add_succ_r.
Qed.

Lemma history_upto_firstn np dim k n :
  firstn k (history_upto np dim n) = history_upto np dim (Nat.min k n).
Proof.
  unfold history_upto. rewrite firstn_map, seq_firstn. reflexivity.
Qed.

Lemma history_upto_skipn np dim k n :
  skipn k (history_upto np dim n) =
  map (distance_at np dim) (seq (S k) (n - k)).
Proof.
  unfold history_upto. rewrite skipn_map, seq_skipn. reflexivity.
Qed.

Lemma norm_sub_self s : Vec.norm (Vec.sub s s) = 0.
Proof.
  unfold Vec.norm.
  replace (Vec.sum (map (fun x => x * x) (Vec.sub s s))) with 0;
    [apply sqrt_0|].
  induction s as [|x s IH]; [reflexivity|].
  unfold Vec.sub in *. simpl. rewrite <- IH. ring.
Qed.

Lemma normalize_unit_interval v :
  Forall (fun y => 0 <= y <= 1) (normalize v).
Proof.
  destruct v as [|x v]; [constructor|].
  assert (Hv : x :: v <> []) by discriminate.
  pose proof (normalize_entry_pos _ Hv) as Hpos.
  assert (Hnn : Forall (fun y => 0 <= y) (normalize (x :: v))).
  { eapply Forall_impl; [|exact Hpos]. simpl. intros; lra. }
  apply Forall_forall. intros y Hy. split.
  - exact (proj1 (Forall_forall _ _) Hnn y Hy).
  - rewrite <- (normalize_sum _ Hv). now apply entry_le_sum.
Qed.

Lemma normalize_sum_le_1 v : Vec.sum (normalize v) <= 1.
Proof.
  destruct v as [|x v]; [simpl; lra|].
  rewrite normalize_sum by discriminate. lra.
Qed.

Lemma state_at_normalized np dim k :
  exists v, state_at np dim k = normalize v.
Proof. destruct k; cbn [state_at]; eexists; reflexivity. Qed.

Lemma sum_sq_sub_le a : forall b,
  Forall (fun y => 0 <= y <= 1) a -> Forall (fun y => 0 <= y <= 1) b ->
  Vec.sum (map (fun x => x * x) (Vec.sub a b)) <= Vec.sum a + Vec.sum b.
Proof.
  induction a as [|x a IH]; intros b Ha Hb.
  - change (Vec.sub [] b) with (@nil R). simpl.
    assert (0 <= Vec.sum b); [|lra].
    apply sum_nonneg. eapply Forall_impl; [|exact Hb]. simpl. intros; lra.
  - destruct b as [|y b].
    + change (Vec.sub (x :: a) []) with (@nil R). simpl.
      assert (0 <= Vec.sum (x :: a)); [|simpl in *; lra].
      apply sum_nonneg. eapply Forall_impl; [|exact Ha]. simpl. intros; lra.
    + inversion Ha as [|? ? Hx Ha']; inversion Hb as [|? ? Hy Hb']; subst.
      specialize (IH b Ha' Hb'). unfold Vec.sub in *. simpl in *. nra.
Qed.

Lemma distance_at_le_sqrt2 np dim k : distance_at np dim k <= sqrt 2.
Proof.
  unfold distance_at, Vec.norm. apply sqrt_le_1_alt.
  destruct (state_at_normalized np dim k) as [v ->].
  unfold initial_state.
  pose proof (sum_sq_sub_le _ _ (normalize_unit_interval v)
                (normalize_unit_interval (initial_draw np dim))).
  pose proof (normalize_sum_le_1 v).
  pose proof (normalize_sum_le_1 (initial_draw np dim)). lra.
Qed.

Lemma history_upto_Forall np dim (P : R -> Prop) n :
  (forall k, (1 <= k <= n)%nat -> P (distance_at np dim k)) ->
  Forall P (history_upto np dim n).
Proof.
  intros H. unfold history_upto. apply Forall_forall. intros y Hy.
  apply in_map_iff in Hy as [k [<- Hk]]. apply in_seq in Hk. apply H. lia.
Qed.

Lemma run_ok_inv np dim steps epsilon r d h :
  recurrence_simulation np dim steps epsilon = Ok (r, d, h) ->
  (1 <= steps_executed steps r <= steps)%nat /\
  d = distance_at np dim (steps_executed steps r) /\
  h = history_upto np dim (steps_executed steps r).
Proof.
  intros Hrun. destruct r as [t|].
  - apply run_some_inv in Hrun. simpl. tauto.
  - apply run_none_inv in Hrun. simpl. repeat split; try tauto; lia.
Qed.

(** X6: if the trajectory is back at the initial state after [p] steps,
    with [1 <= p <= steps], and [epsilon > 0], the run succeeds no later
    than step [p]. *)
Theorem exact_return_is_detected
    (np : Numpy) (dim steps p : nat) (epsilon : R) :
  0 < epsilon -> (1 <= p <= steps)%nat ->
  state_at np dim p = initial_state np dim ->
  exists t, (1 <= t <= p)%nat /\
    recurrence_simulation np dim steps epsilon =
    Ok (Some t, distance_at np dim t, history_upto np dim t).
Proof.
  intros Heps Hp Hback.
  assert (Hlt : distance_at np dim p < epsilon).
  { unfold distance_at. rewrite Hback, norm_sub_self. exact Heps. }
  destruct (run_hit np dim steps epsilon p Hp Hlt) as (t & Ht & _ & _ & Heq).
  exists t. split; assumption.
Qed.

(** X7: every distance the driver returns, the final one and each entry of
    the history, lies between 0 and the square root of 2. *)
Theorem returned_distances_bounded
    (np : Numpy) (dim steps : nat) (epsilon : R) (r : option nat)
    (d : R) (h : list R) :
  recurrence_simulation np dim steps epsilon = Ok (r, d, h) ->
  0 <= d <= sqrt 2 /\ Forall (fun x => 0 <= x <= sqrt 2) h.
Proof.
  intros Hrun. apply run_ok_inv in Hrun as (_ & -> & ->). split.
  - split; [apply distance_at_nonneg | apply distance_at_le_sqrt2].
  - apply history_upto_Forall. intros k _.
    split; [apply distance_at_nonneg | apply distance_at_le_sqrt2].
Qed.

(** X8: with [epsilon] above the square root of 2 and a budget of at least
    one step, the run succeeds at step 1. *)
Theorem large_epsilon_succeeds_at_once
    (np : Numpy) (dim steps : nat) (epsilon : R) :
  sqrt 2 < epsilon -> (1 <= steps)%nat ->
  recurrence_simulation np dim steps epsilon =
  Ok (Some 1%nat, distance_at np dim 1, [distance_at np dim 1]).
Proof.
  intros Heps Hsteps.
  pose proof (distance_at_le_sqrt2 np dim 1) as Hle.
  apply (run_some_intro np dim steps epsilon 1); [lia | lra|].
  intros k Hk. lia.
Qed.

(** X9: a larger budget extends the run: the history returned with budget
    [steps] is a prefix of the one returned with [steps' >= steps], and a
    run that succeeded returns the very same triple. *)
Theorem larger_budget_extends_run
    (np : Numpy) (dim steps steps' : nat) (epsilon : R) (r : option nat)
    (d : R) (h : list R) :
  (steps <= steps')%nat ->
  recurrence_simulation np dim steps epsilon = Ok (r, d, h) ->
  (exists r' d' rest,
     recurrence_simulation np dim steps' epsilon = Ok (r', d', h ++ rest)) /\
  (r <> None ->
   recurrence_simulation np dim steps' epsilon = Ok (r, d, h)).
Proof.
  intros Hle Hrun.
  assert (Hsome : forall t, r = Some t ->
            recurrence_simulation np dim steps' epsilon = Ok (r, d, h)).
  { intros t ->. apply run_some_inv in Hrun as (Ht & Hlt & Hfirst & -> & ->).
    apply run_some_intro; [lia | exact Hlt | exact Hfirst]. }
  split.
  - destruct r as [t|].
    + exists (Some t), d, []. rewrite app_nil_r. now apply (Hsome t).
    + apply run_none_inv in Hrun as (Hs & Hnone & -> & ->).
      destruct (recurrence_simulation_returns np dim steps' epsilon)
        as (r' & Heq & Hr'); [lia|].
      assert (Hn : (steps <= steps_executed steps' r')%nat).
      { destruct r' as [t'|]; simpl; [|exact Hle].
        apply run_some_inv in Heq as (_ & Hlt' & _).
        destruct (Nat.le_gt_cases steps t') as [H | H]; [exact H|].
        exfalso. apply (Hnone t'); [specialize (Hr' t' eq_refl); lia|].
        exact Hlt'. }
      exists r', (distance_at np dim (steps_executed steps' r')),
        (map (distance_at np dim)
             (seq (S steps) (steps_executed steps' r' - steps))).
      rewrite <- history_upto_app.
      replace (steps + (steps_executed steps' r' - steps))%nat
        with (steps_executed steps' r') by lia.
      exact Heq.
  - intros Hr. destruct r as [t|]; [now apply (Hsome t) | congruence].
Qed.

(** X10: a larger threshold never delays success: if the run with [epsilon]
    succeeds at step [t], the run with [epsilon' >= epsilon] succeeds at a
    step [t' <= t], and its history is the first [t'] entries of the
    other. *)
Theorem larger_epsilon_succeeds_sooner
    (np : Numpy) (dim steps t : nat) (epsilon epsilon' d : R) (h : list R) :
  epsilon <= epsilon' ->
  recurrence_simulation np dim steps epsilon = Ok (Some t, d, h) ->
  exists t' d',
    (1 <= t' <= t)%nat /\
    recurrence_simulation np dim steps epsilon' =
    Ok (Some t', d', firstn t' h).
Proof.
  intros Hle Hrun.
  apply run_some_inv in Hrun as (Ht & Hlt & _ & -> & ->).
  assert (Hlt' : distance_at np dim t < epsilon') by lra.
  destruct (run_hit np dim steps epsilon' t Ht Hlt')
    as (t' & Ht' & _ & _ & Heq).
  exists t', (distance_at np dim t'). split; [exact Ht'|].
  rewrite history_upto_firstn.
  replace (Nat.min t' t) with t' by lia. exact Heq.
Qed.

(** X11: in a returned history only the last entry can be under
    [epsilon]: on success every earlier entry is not below [epsilon] and
    the returned distance is; on exhaustion no entry is. *)
Theorem history_stays_above_epsilon
    (np : Numpy) (dim steps : nat) (epsilon : R) (r : option nat)
    (d : R) (h : list R) :
  recurrence_simulation np dim steps epsilon = Ok (r, d, h) ->
  match r with
  | Some _ => Forall (fun x => ~ x < epsilon) (removelast h) /\ d < epsilon
  | None => Forall (fun x => ~ x < epsilon) h /\ ~ d < epsilon
  end.
Proof.
  intros Hrun. destruct r as [t|].
  - apply run_some_inv in Hrun as (Ht & Hlt & Hfirst & -> & ->).
    split; [|exact Hlt].
    destruct t as [|t]; [lia|].
    rewrite history_upto_S, removelast_last.
    apply history_upto_Forall. intros k Hk. apply Hfirst. lia.
  - apply run_none_inv in Hrun as (Hs & Hnone & -> & ->). split.
    + apply history_upto_Forall. exact Hnone.
    + apply Hnone. lia.
Qed.

(** ** Console output *)

Lemma for_range_returns_step Q s0 epsilon n : forall t state distances r d h,
  for_range Q s0 epsilon n t state distances = Return (r, d, h) ->
  r <> None.
Proof.
  induction n as [|n IH]; intros t state distances r d h; cbn [for_range].
  - discriminate.
  - destruct (Rlt_dec _ epsilon); [|apply IH].
    intros [= <- _ _]. discriminate.
Qed.

Lemma for_range_print_eq Q s0 epsilon n : forall t state distances,
  for_range_print Q s0 epsilon n t state distances =
  (for_range Q s0 epsilon n t state distances,
   match for_range Q s0 epsilon n t state distances with
   | Return r => expected_output (Ok r)
   | Done _ _ => []
   end).
Proof.
  induction n as [|n IH]; intros t state distances;
    cbn [for_range for_range_print]; [reflexivity|].
  destruct (Rlt_dec _ epsilon); [reflexivity | apply IH].
Qed.

Lemma recurrence_simulation_print_eq np dim steps epsilon :
  recurrence_simulation_print np dim steps epsilon =
  (recurrence_simulation np dim steps epsilon,
   expected_output (recurrence_simulation np dim steps epsilon)).
Proof.
  unfold recurrence_simulation_print, recurrence_simulation.
  destruct (random np (default_rng np 42) dim) as [draw rng].
  destruct (standard_normal np rng (dim, dim)) as [M rng'].
  destruct (linalg_qr np M) as [Q R'].
  rewrite for_range_print_eq.
  destruct (for_range Q (normalize draw) epsilon steps 1 (normalize draw) [])
    as [r | state distances] eqn:Hloop.
  - reflexivity.
  - cbn [app]. destruct (getitem_last distances); reflexivity.
Qed.

(** X12: the printing driver returns or raises exactly as
    [recurrence_simulation] does, and its output reports what is returned:
    on success the step index and the distance of the returned triple, on
    exhaustion the warning and the returned final distance; with an empty
    history the warning is printed before [IndexError] is raised. *)
Theorem printed_values_are_returned_values
    (np : Numpy) (dim steps : nat) (epsilon : R) :
  fst (recurrence_simulation_print np dim steps epsilon) =
  recurrence_simulation np dim steps epsilon /\
  (forall t d h,
     recurrence_simulation np dim steps epsilon = Ok (Some t, d, h) ->
     snd (recurrence_simulation_print np dim steps epsilon) =
     [[PStr "[SUCCESS] Recurrence achieved at step"; PInt t];
      [PStr "Distance from initial state:"; PFloat d]]) /\
  (forall d h,
     recurrence_simulation np dim steps epsilon = Ok (None, d, h) ->
     snd (recurrence_simulation_print np dim steps epsilon) =
     [[PStr "[WARNING] Recurrence threshold not reached."];
      [PStr "Final distance:"; PFloat d]]) /\
  (forall e,
     recurrence_simulation np dim steps epsilon = Raise e ->
     snd (recurrence_simulation_print np dim steps epsilon) =
     [[PStr "[WARNING] Recurrence threshold not reached."]]).
Proof.
  rewrite recurrence_simulation_print_eq. cbn [fst snd].
  split; [reflexivity|].
  repeat split; intros; match goal with H : _ = _ |- _ => rewrite H end;
    reflexivity.
Qed.

(** X13: in the script's entry point the call with the defaults returns a
    triple: the budget of 5000 steps keeps the history non-empty, so the
    [IndexError] of an empty history cannot occur.  The script makes
    exactly nine [print] calls: the banner, the two calls of the driver
    and the six calls of the report on the returned history. *)
Theorem script_main_completes (np : Numpy) :
  exists r d h,
    recurrence_simulation np 300 5000 (1 / 1000) = Ok (r, d, h) /\
    script_main np =
    (Ok tt, [PStr banner] :: expected_output (Ok (r, d, h)) ++ report h) /\
    length (snd (script_main np)) = 9%nat.
Proof.
  unfold script_main. rewrite recurrence_simulation_print_eq.
  destruct (recurrence_simulation_returns np 300 5000 (1 / 1000))
    as (r & Heq & _); [lia|].
  rewrite Heq. do 3 eexists. split; [reflexivity|].
  split; [reflexivity|].
  cbn [snd]. destruct r; reflexivity.
Qed.

(** X14: the two slices the script prints: [hist[:10]] holds the distances
    of the first [min 10 n] steps and [hist[-10:]] those of the last
    [min 10 n] steps, [n] being the number of executed steps; when at most
    ten steps ran, both are the whole history. *)
Theorem printed_slices
    (np : Numpy) (dim steps : nat) (epsilon : R) (r : option nat)
    (d : R) (h : list R) :
  recurrence_simulation np dim steps epsilon = Ok (r, d, h) ->
  slice_to 10 h =
    map (distance_at np dim) (seq 1 (Nat.min 10 (steps_executed steps r))) /\
  slice_last 10 h =
    map (distance_at np dim)
        (seq (S (steps_executed steps r - 10))
             (Nat.min 10 (steps_executed steps r))) /\
  ((steps_executed steps r <= 10)%nat ->
   slice_to 10 h = h /\ slice_last 10 h = h).
Proof.
  intros Hrun. apply run_ok_inv in Hrun as (_ & _ & ->).
  set (n := steps_executed steps r).
  assert (Hto : slice_to 10 (history_upto np dim n) =
                history_upto np dim (Nat.min 10 n))
    by apply history_upto_firstn.
  assert (Hlast : slice_last 10 (history_upto np dim n) =
                  map (distance_at np dim) (seq (S (n - 10)) (Nat.min 10 n))).
  { unfold slice_last. rewrite history_upto_length, history_upto_skipn.
    replace (n - (n - 10))%nat with (Nat.min 10 n) by lia. reflexivity. }
  split; [exact Hto | split; [exact Hlast|]].
  intros Hn. rewrite Hto, Hlast.
  replace (Nat.min 10 n) with n by lia.
  replace (n - 10)%nat with 0%nat by lia. split; reflexivity.
Qed.

(** ** The further properties at the swapping run *)

Lemma state_at_swap_2 : state_at np_swap 2 2 = initial_state np_swap 2.
Proof.
  pose proof FLOOR_small. cbn [state_at].
  rewrite initial_state_swap, transform_swap.
  rewrite (evolve_swap (1 / 4) (3 / 4)) by lra.
  rewrite (evolve_swap (3 / 4) (1 / 4)) by lra. reflexivity.
Qed.

Lemma sqrt2_lt_2 : sqrt 2 < 2.
Proof.
  assert (H : sqrt 2 * sqrt 2 = 2) by (apply sqrt_sqrt; lra).
  pose proof (sqrt_pos 2). nra.
Qed.

Lemma exact_return_is_detected_witness :
  exists t, (1 <= t <= 2)%nat /\
    recurrence_simulation np_swap 2 5 (1 / 1000) =
    Ok (Some t, distance_at np_swap 2 t, history_upto np_swap 2 t).
Proof.
  apply (exact_return_is_detected np_swap 2 5 2 (1 / 1000));
    [lra | lia | exact state_at_swap_2].
Defined.

Lemma returned_distances_bounded_witness :
  0 <= 0 <= sqrt 2 /\
  Forall (fun x => 0 <= x <= sqrt 2) [sqrt (1 / 2); 0].
Proof.
  exact (returned_distances_bounded np_swap 2 5 (1 / 1000) (Some 2%nat) 0
           [sqrt (1 / 2); 0] recurrence_simulation_swap_returns).
Defined.

Lemma large_epsilon_succeeds_at_once_witness :
  recurrence_simulation np_swap 2 3 2 =
  Ok (Some 1%nat, distance_at np_swap 2 1, [distance_at np_swap 2 1]).
Proof.
  apply (large_epsilon_succeeds_at_once np_swap 2 3 2);
    [exact sqrt2_lt_2 | lia].
Defined.

Lemma larger_budget_extends_run_witness :
  recurrence_simulation np_swap 2 7 (1 / 1000) =
  Ok (Some 2%nat, 0, [sqrt (1 / 2); 0]).
Proof.
  assert (H : (5 <= 7)%nat) by lia.
  apply (proj2 (larger_budget_extends_run np_swap 2 5 7 (1 / 1000)
                  (Some 2%nat) 0 [sqrt (1 / 2); 0] H
                  recurrence_simulation_swap_returns)).
  discriminate.
Defined.

Lemma larger_epsilon_succeeds_sooner_witness :
  exists t' d',
    (1 <= t' <= 2)%nat /\
    recurrence_simulation np_swap 2 5 1 =
    Ok (Some t', d', firstn t' [sqrt (1 / 2); 0]).
Proof.
  apply (larger_epsilon_succeeds_sooner np_swap 2 5 2 (1 / 1000) 1 0
           [sqrt (1 / 2); 0]); [lra | exact recurrence_simulation_swap_returns].
Defined.

Lemma history_stays_above_epsilon_witness :
  Forall (fun x => ~ x < 1 / 1000) (removelast [sqrt (1 / 2); 0]) /\
  0 < 1 / 1000.
Proof.
  exact (history_stays_above_epsilon np_swap 2 5 (1 / 1000) (Some 2%nat) 0
           [sqrt (1 / 2); 0] recurrence_simulation_swap_returns).
Defined.

Lemma printed_values_are_returned_values_witness :
  snd (recurrence_simulation_print np_swap 2 5 (1 / 1000)) =
  [[PStr "[SUCCESS] Recurrence achieved at step"; PInt 2];
   [PStr "Distance from initial state:"; PFloat 0]].
Proof.
  apply (proj1 (proj2 (printed_values_are_returned_values
                         np_swap 2 5 (1 / 1000)))
           2%nat 0 [sqrt (1 / 2); 0]).
  exact recurrence_simulation_swap_returns.
Defined.

Lemma printed_slices_witness :
  slice_to 10 [sqrt (1 / 2); 0] = [sqrt (1 / 2); 0] /\
  slice_last 10 [sqrt (1 / 2); 0] = [sqrt (1 / 2); 0].
Proof.
  apply (proj2 (proj2 (printed_slices np_swap 2 5 (1 / 1000) (Some 2%nat) 0
                         [sqrt (1 / 2); 0]
                         recurrence_simulation_swap_returns))).
  simpl. lia.
Defined.
